(** * Waypoint drawing sessions of the map editor (App component)

    A shallow embedding of the React component [App] and of the [Dropdown]
    it renders: the React state cells, the [drawRef] reference, the Draw
    interactions attached to the OpenLayers map, and the event handlers
    [addDrawingInteraction], the ['drawend'] callback and [handleKeyDown].

    React state is read by a handler from the render it was created in and
    written through queued setters; handlers therefore take the render they
    close over ([r]) next to the state they update ([s]). *)

From Stdlib Require Import DecimalString.
From Stdlib Require DecimalNat DecimalFacts.
From stdpp Require Import base numbers list strings.

Local Open Scope string_scope.
Local Open Scope list_scope.

(** ** The JavaScript library functions the component calls *)

Module JS.

(** [Number.prototype.toString()] on an array index. *)
Definition toString (n : nat) : string :=
  NilEmpty.string_of_uint (Nat.to_uint n).

(** The filler of [padStart]: [n] characters of [padString] repeated,
    [cur] being what is left of the current repetition. *)
Fixpoint filler (n : nat) (padString cur : string) : string :=
  match n with
  | O => ""
  | S n' =>
      match cur with
      | String c rest => String c (filler n' padString rest)
      | EmptyString =>
          match padString with
          | String c rest => String c (filler n' padString rest)
          | EmptyString => ""
          end
      end
  end.

(** [String.prototype.padStart(targetLength, padString)]. *)
Definition padStart (s : string) (targetLength : nat) (padString : string)
  : string :=
  if decide (targetLength ≤ String.length s)%nat then s
  else filler (targetLength - String.length s) padString padString +:+ s.

(** [Array.prototype.map] with the callback's [(element, index)]. *)
Definition mapi {A B : Type} (f : A → nat → B) (l : list A) : list B :=
  imap (λ index c, f c index) l.

(** A number-or-null used as a number: [null] converts to 0. *)
Definition toNumber (v : option Z) : Z :=
  match v with
  | Some z => z
  | None => 0%Z
  end.

(** The start offset [Array.prototype.splice] computes from its first
    argument: a negative start counts from the end of the array, and the
    result is kept within [0, len]. *)
Definition actualStart (len : nat) (start : Z) : nat :=
  if decide (start < 0)%Z
  then Z.to_nat (Z.max (Z.of_nat len + start) 0)
  else Z.to_nat (Z.min start (Z.of_nat len)).

(** [Array.prototype.splice(start, deleteCount, ...items)]: the array as
    it is after the call. *)
Definition splice {A : Type} (l : list A) (start deleteCount : Z)
    (items : list A) : list A :=
  let k := actualStart (length l) start in
  let actualDeleteCount :=
    Z.to_nat (Z.min (Z.max deleteCount 0) (Z.of_nat (length l - k))) in
  take k l ++ items ++ drop (k + actualDeleteCount) l.

(** [Collection.remove(elem)] of the map's interaction collection: the
    first occurrence of [elem] goes, if there is one. *)
Fixpoint remove (elem : nat) (l : list nat) : list nat :=
  match l with
  | [] => []
  | x :: l' => if decide (x = elem) then l' else x :: remove elem l'
  end.

End JS.

(** ** Data *)

(** The [type] of a Draw interaction. *)
Inductive geometryType : Set :=
  | LineString
  | Polygon.

(** The strings the Dropdown's two menu items pass to [onSelect]. *)
Inductive position : Set :=
  | before
  | after.

#[global] Instance geometryType_eq_dec : EqDecision geometryType.
Proof. solve_decision. Defined.

#[global] Instance position_eq_dec : EqDecision position.
Proof. solve_decision. Defined.

Section Model.

(** One element of a geometry's coordinate array.  The component stores
    and shows these values and never looks inside them. *)
Context {C : Type}.

(** The objects built by [coords.map]: [{ wp, coordinates }]. *)
Record waypoint : Type := Waypoint {
  wp : string;
  coordinates : C
}.

(** What the ['drawend'] callback of one Draw interaction closes over:
    the arguments of [addDrawingInteraction] and the [waypoints] and
    [selectedWaypoint] of the render that call was made from. *)
Record closure : Type := Closure {
  type : geometryType;
  insertPosition : option position;
  cl_waypoints : list waypoint;
  cl_selectedWaypoint : option Z
}.

(** A Draw interaction object: its ['drawend'] listener and the features
    of its sketch overlay, each given by its geometry's coordinates. *)
Record Draw : Type := MkDraw {
  on_drawend : closure;
  overlay : list (list C)
}.

(** What the registered [handleKeyDown] closes over: [drawingMode] and
    [map] of the render whose effect registered it. *)
Record listener : Type := Listener {
  kd_drawingMode : option geometryType;
  kd_map : bool
}.

(** The component's state.  [map] is [false] for [null]; the Draw
    objects live in [heap] and are named by their position in it, so
    that [drawRef] and the map's interaction collection share them. *)
Record state : Type := State {
  map : bool;
  drawingMode : option geometryType;
  waypoints : list waypoint;
  drawType : option geometryType;
  selectedWaypoint : option Z;
  drawRef : option nat;
  heap : list Draw;
  interactions : list nat;
  keydown : listener
}.

Definition setMap (v : bool) (s : state) : state :=
  State v (drawingMode s) (waypoints s) (drawType s) (selectedWaypoint s)
    (drawRef s) (heap s) (interactions s) (keydown s).

Definition setDrawingMode (v : option geometryType) (s : state) : state :=
  State (map s) v (waypoints s) (drawType s) (selectedWaypoint s)
    (drawRef s) (heap s) (interactions s) (keydown s).

Definition setWaypoints (f : list waypoint → list waypoint) (s : state)
  : state :=
  State (map s) (drawingMode s) (f (waypoints s)) (drawType s)
    (selectedWaypoint s) (drawRef s) (heap s) (interactions s) (keydown s).

Definition setDrawType (v : option geometryType) (s : state) : state :=
  State (map s) (drawingMode s) (waypoints s) v (selectedWaypoint s)
    (drawRef s) (heap s) (interactions s) (keydown s).

Definition setSelectedWaypoint (v : option Z) (s : state) : state :=
  State (map s) (drawingMode s) (waypoints s) (drawType s) v
    (drawRef s) (heap s) (interactions s) (keydown s).

Definition set_drawRef (v : option nat) (s : state) : state :=
  State (map s) (drawingMode s) (waypoints s) (drawType s)
    (selectedWaypoint s) v (heap s) (interactions s) (keydown s).

Definition set_heap (v : list Draw) (s : state) : state :=
  State (map s) (drawingMode s) (waypoints s) (drawType s)
    (selectedWaypoint s) (drawRef s) v (interactions s) (keydown s).

Definition set_interactions (v : list nat) (s : state) : state :=
  State (map s) (drawingMode s) (waypoints s) (drawType s)
    (selectedWaypoint s) (drawRef s) (heap s) v (keydown s).

Definition set_keydown (v : listener) (s : state) : state :=
  State (map s) (drawingMode s) (waypoints s) (drawType s)
    (selectedWaypoint s) (drawRef s) (heap s) (interactions s) v.

(** The component as first rendered. *)
Definition initial : state :=
  State false None [] None None None [] [] (Listener None false).

(** A handler either returns or throws a TypeError; in both cases the
    state holds what it did until then. *)
Inductive outcome : Type :=
  | Returns (s : state)
  | Throws (s : state).

Definition state_of (o : outcome) : state :=
  match o with
  | Returns s => s
  | Throws s => s
  end.

(** ** The handlers *)

(** The label template [`WP(${index.toString().padStart(2, '0')})`]. *)
Definition label (index : nat) : string :=
  "WP(" +:+ JS.padStart (JS.toString index) 2 "0" +:+ ")".

(** [coords.map((c, index) => ({ wp: ..., coordinates: c }))]. *)
Definition formattedCoords (coords : list C) : list waypoint :=
  JS.mapi (λ c index, Waypoint (label index) c) coords.

(** [map.addInteraction(draw)]. *)
Definition addInteraction (draw : nat) (s : state) : state :=
  set_interactions (interactions s ++ [draw]) s.

Definition set_overlay (features : list (list C)) (d : Draw) : Draw :=
  MkDraw (on_drawend d) features.

(** [map.removeInteraction(draw)].  When the collection holds [draw] it
    lets it go, and the map library then detaches the Draw from the map
    ([setMap(null)]), which aborts its drawing and empties its sketch
    overlay; when it does not hold it nothing happens. *)
Definition removeInteraction (draw : nat) (s : state) : state :=
  if bool_decide (draw ∈ interactions s) then
    set_heap (alter (set_overlay []) draw (heap s))
      (set_interactions (JS.remove draw (interactions s)) s)
  else s.

(** [addDrawingInteraction(type, insertPosition)] of the render [r]. *)
Definition addDrawingInteraction (r : state) (ty : geometryType)
    (ins : option position) (s : state) : state :=
  if map r then
    let draw := length (heap s) in
    let s := set_heap
      (heap s ++
         [MkDraw (Closure ty ins (waypoints r) (selectedWaypoint r)) []]) s in
    let s := set_drawRef (Some draw) s in
    let s := addInteraction draw s in
    setDrawingMode (Some ty) s
  else s.

(** The ['drawend'] callback of a Draw interaction, called with the
    coordinates of the finished feature's geometry. *)
Definition drawend (cl : closure) (coords : list C) (s : state) : state :=
  let formatted := formattedCoords coords in
  let s :=
    match insertPosition cl with
    | Some pos =>
        let newWaypoints := cl_waypoints cl in
        let newWaypoints :=
          match pos with
          | before =>
              JS.splice newWaypoints
                (JS.toNumber (cl_selectedWaypoint cl)) 0 formatted
          | after =>
              JS.splice newWaypoints
                (JS.toNumber (cl_selectedWaypoint cl) + 1) 0 formatted
          end in
        setWaypoints (λ _, newWaypoints) s
    | None => setWaypoints (λ prev, prev ++ formatted) s
    end in
  let s := setDrawingMode None s in
  setDrawType (Some (type cl)) s.

(** The first argument of the two [splice] calls of the callback:
    [selectedWaypoint] and [selectedWaypoint + 1]. *)
Definition spliceStart (pos : position) (sel : option Z) : Z :=
  match pos with
  | before => JS.toNumber sel
  | after => (JS.toNumber sel + 1)%Z
  end.

(** [handleKeyDown(event)] as registered on the window. *)
Definition handleKeyDown (key : string) (s : state) : outcome :=
  if String.eqb key "Enter" && bool_decide (is_Some (kd_drawingMode (keydown s)))
  then
    match drawRef s with
    | Some draw =>
        if kd_map (keydown s) then
          let s := removeInteraction draw s in
          match heap s !! draw with
          | Some d =>
              match overlay d with
              | coords :: _ =>
                  let formatted := formattedCoords coords in
                  let s := setWaypoints (λ prev, prev ++ formatted) s in
                  let s := setDrawingMode None s in
                  Returns (set_drawRef None s)
              | [] => Throws s
              end
          | None => Throws s
          end
        else Throws s
    | None =>
        let s := setDrawingMode None s in
        Returns (set_drawRef None s)
    end
  else Returns s.

(** The effect [useEffect(..., [drawingMode])]: after a render in which
    [drawingMode] differs from the one the listener was registered with,
    the listener of that render replaces it. *)
Definition useEffect_keydown (s : state) : state :=
  if decide (kd_drawingMode (keydown s) = drawingMode s) then s
  else set_keydown (Listener (drawingMode s) (map s)) s.

(** ** Events

    What reaches the component from outside.  The map library is not part
    of the component: when an interaction sketches and when it fires
    ['drawend'] is left to the events, for any interaction that is attached
    to the map, with any overlay features and any coordinates.  A row of
    the waypoint list, and so its Dropdown, exists only for an index of
    the current sequence. *)

Inductive event : Type :=
  | Mounted
      (* the mount effect has run: [setMap(initialMap)] *)
  | ClickDraw (ty : geometryType)
      (* the Draw LineString and Draw Polygon buttons *)
  | Select (index : nat) (pos : position)
      (* a menu item of the Dropdown in row [index] of the list *)
  | Sketch (draw : nat) (features : list (list C))
      (* pointer activity: the sketch overlay of an interaction changes *)
  | DrawEnd (draw : nat) (coords : list C)
      (* an attached interaction fires 'drawend' *)
  | KeyDown (key : string)
      (* a keydown on the window *).

Definition handle (e : event) (s : state) : outcome :=
  match e with
  | Mounted => Returns (setMap true s)
  | ClickDraw ty => Returns (addDrawingInteraction s ty None s)
  | Select index pos =>
      if decide (index < length (waypoints s))%nat then
        let s' := setSelectedWaypoint (Some (Z.of_nat index)) s in
        Returns (addDrawingInteraction s Polygon (Some pos) s')
      else Returns s
  | Sketch draw features =>
      if bool_decide (draw ∈ interactions s) then
        Returns (set_heap (alter (set_overlay features) draw (heap s)) s)
      else Returns s
  | DrawEnd draw coords =>
      if bool_decide (draw ∈ interactions s) then
        match heap s !! draw with
        | Some d => Returns (drawend (on_drawend d) coords s)
        | None => Returns s
        end
      else Returns s
  | KeyDown key => handleKeyDown key s
  end.

(** One event: its handler, then the render and its effects. *)
Definition step (e : event) (s : state) : outcome :=
  match handle e s with
  | Returns s' => Returns (useEffect_keydown s')
  | Throws s' => Throws (useEffect_keydown s')
  end.

(** A sequence of events, each handled to its end before the next. *)
Definition run (es : list event) (s : state) : state :=
  foldl (λ s e, state_of (step e s)) s es.

(** The rows of the waypoint list, [waypoints.map((point, index) => ...)]:
    each shows [point.wp] and [point.coordinates]. *)
Definition rows (l : list waypoint) : list (string * C) :=
  JS.mapi (λ point index, (wp point, coordinates point)) l.

Definition display (s : state) : list (string * C) :=
  rows (waypoints s).

End Model.

Arguments waypoint : clear implicits.
Arguments closure : clear implicits.
Arguments Draw : clear implicits.
Arguments state : clear implicits.
Arguments outcome : clear implicits.
Arguments event : clear implicits.
Arguments removeInteraction : simpl never.

(** ** Scenarios

    Runs of the component on waypoints whose coordinates are arrays of
    numbers, [[x; y]]. *)

Module Scenario.

Local Open Scope Z_scope.

Definition line : list (list Z) := [[0; 0]; [1; 1]; [2; 2]].

Definition block : list (list Z) := [[9; 9]; [8; 8]].

(** The map is there, Draw LineString is clicked and a line of three
    vertices is drawn: interaction 0. *)
Definition drawn_line : list (event (list Z)) :=
  [Mounted; ClickDraw LineString; DrawEnd 0%nat line].

(** Then Insert Polygon Before is chosen in row 1 and two vertices are
    drawn: interaction 1. *)
Definition insert_before_1 : list (event (list Z)) :=
  drawn_line ++ [Select 1%nat before; DrawEnd 1%nat block].

(** Row 1 is chosen a second time before anything is drawn, so that the
    callback of interaction 2 holds index 1. *)
Definition row_1_chosen_twice : list (event (list Z)) :=
  drawn_line ++ [Select 1%nat after; Select 1%nat before].

(** Insert Polygon Before is chosen in row 0 after the line: the
    callback of interaction 1 holds no index, which splices at 0. *)
Definition insert_before_0 : list (event (list Z)) :=
  drawn_line ++ [Select 0%nat before].

(** Two Draw buttons are clicked one after the other. *)
Definition two_sessions : list (event (list Z)) :=
  [Mounted; ClickDraw LineString; ClickDraw Polygon].

(** Draw LineString is clicked and nothing is sketched. *)
Definition nothing_sketched : list (event (list Z)) :=
  [Mounted; ClickDraw LineString].

(** A line of two is drawn and Insert Polygon Before is chosen in row 0
    (interaction 1); the line's interaction draws two more vertices; the
    last row of the sequence of four is chosen twice (interactions 2 and
    3); then interaction 1, begun on the sequence of two, ends its gesture
    and leaves a sequence of three. *)
Definition shrunk_before_completion : list (event (list Z)) :=
  [Mounted; ClickDraw LineString; DrawEnd 0%nat [[0; 0]; [1; 1]];
   Select 0%nat before;
   DrawEnd 0%nat [[2; 2]; [3; 3]];
   Select 3%nat after; Select 3%nat after;
   DrawEnd 1%nat [[7; 7]]].

(** Interaction 2 of [row_1_chosen_twice], whose callback holds the
    line's three waypoints and index 1. *)
Definition holds_index_1 : Draw (list Z) :=
  MkDraw (Closure Polygon (Some before)
            [Waypoint "WP(00)" [0; 0]; Waypoint "WP(01)" [1; 1];
             Waypoint "WP(02)" [2; 2]] (Some 1)) [].

(** Draw LineString is clicked and two vertices are sketched. *)
Definition sketched_line : list (event (list Z)) :=
  [Mounted; ClickDraw LineString; Sketch 0%nat [block]].

(** The Draw object of [nothing_sketched]. *)
Definition not_sketching : Draw (list Z) :=
  MkDraw (Closure LineString None [] None) [].

(** After the line, a polygon is begun from its button and drawn, and the
    first interaction draws one more vertex. *)
Definition buttons_only : list (event (list Z)) :=
  [ClickDraw Polygon; DrawEnd 1%nat block; DrawEnd 0%nat [[5; 5]]].

(** A callback holding the line's waypoints and a negative index. *)
Definition holds_negative_index : closure (list Z) :=
  Closure Polygon (Some before)
    [Waypoint "WP(00)" [0; 0]; Waypoint "WP(01)" [1; 1];
     Waypoint "WP(02)" [2; 2]] (Some (-1)).

End Scenario.

(** ** The Dropdown component *)

Module Dropdown.

(** What can be clicked in a Dropdown: its toggle button and the two menu
    items, ['before'] and ['after']. *)
Inductive button : Set :=
  | Toggle
  | Item (pos : position).

Section Component.

(** The parent's state and the [onSelect] prop. *)
Context {P : Type} (onSelect : position → P → P).

(** [handleSelect(position)]: [onSelect(position)], then
    [setIsOpen(false)]. *)
Definition handleSelect (pos : position) (st : bool * P) : bool * P :=
  (false, onSelect pos (snd st)).

(** One click, on the component's [isOpen] and the parent's state.  The
    toggle does [setIsOpen(!isOpen)]; the menu items are rendered under
    [isOpen &&], so a click on one exists only while the menu is open. *)
Definition click (b : button) (st : bool * P) : bool * P :=
  match b with
  | Toggle => (negb (fst st), snd st)
  | Item pos => if fst st then handleSelect pos st else st
  end.

Definition clicks (bs : list button) (st : bool * P) : bool * P :=
  foldl (λ st b, click b st) st bs.

End Component.

Definition is_Toggle (b : button) : bool :=
  match b with
  | Toggle => true
  | Item _ => false
  end.

End Dropdown.

(** ** States the component can be in *)

Section Reachable.

Context {C : Type}.

(** What holds of the references of every state the component reaches:
    the registered key listener has the current [drawingMode], a drawing
    mode comes with a map and a current Draw, and [drawRef] and the map's
    interactions name Draw objects that exist, each attached once. *)
Definition well_formed (s : state C) : Prop :=
  kd_drawingMode (keydown s) = drawingMode s
  ∧ (is_Some (drawingMode s) →
       map s = true ∧ kd_map (keydown s) = true ∧ is_Some (drawRef s))
  ∧ (∀ draw : nat, drawRef s = Some draw → (draw < length (heap s))%nat)
  ∧ Forall (λ draw : nat, (draw < length (heap s))%nat) (interactions s)
  ∧ NoDup (interactions s).

(** A Draw that is not attached to the map is not sketching: it was
    created attached, and leaving the map emptied its overlay. *)
Definition detached_are_idle (s : state C) : Prop :=
  ∀ (draw : nat) d,
    heap s !! draw = Some d → draw ∉ interactions s → overlay d = [].

Definition is_Select (e : event C) : bool :=
  match e with
  | Select _ _ => true
  | _ => false
  end.

End Reachable.

(** ** How the handlers act on the state *)

Section Facts.

Context {C : Type}.
Implicit Types (s r : state C) (e : event C) (es : list (event C)).
Implicit Types (d : Draw C) (cl : closure C) (coords : list C).

Lemma length_formattedCoords coords :
  length (formattedCoords coords) = length coords.
Proof. apply length_imap. Qed.

Lemma lookup_formattedCoords coords (i : nat) :
  formattedCoords coords !! i = Waypoint (label i) <$> coords !! i.
Proof. unfold formattedCoords, JS.mapi. now rewrite list_lookup_imap. Qed.

Lemma fmap_imap_compose {A B D : Type} (g : B → D) (f : nat → A → B)
    (l : list A) :
  g <$> imap f l = imap (λ i a, g (f i a)) l.
Proof.
  revert f. induction l as [|a l IH]; intros f; simpl; [done|].
  f_equal. apply IH.
Qed.

Lemma imap_snd_id {A : Type} (f : nat → A → A) (l : list A) :
  (∀ i a, f i a = a) → imap f l = l.
Proof.
  revert f. induction l as [|a l IH]; intros f Hf; simpl; [done|].
  rewrite Hf. f_equal. apply IH. intros; apply Hf.
Qed.

Lemma coordinates_formattedCoords coords :
  coordinates <$> formattedCoords coords = coords.
Proof.
  unfold formattedCoords, JS.mapi. rewrite fmap_imap_compose.
  now apply imap_snd_id.
Qed.

(** [splice] with nothing to delete and a start that is not negative. *)
Lemma splice_insert {A : Type} (l items : list A) (start : Z) :
  (0 ≤ start)%Z →
  JS.splice l start 0 items =
    take (Z.to_nat start `min` length l) l ++ items ++
    drop (Z.to_nat start `min` length l) l.
Proof.
  intros Hs. unfold JS.splice, JS.actualStart.
  destruct (decide (start < 0)%Z) as [?|_]; [lia|].
  replace (Z.to_nat (Z.min start (Z.of_nat (length l))))
    with (Z.to_nat start `min` length l) by lia.
  repeat f_equal. lia.
Qed.

Lemma heap_useEffect_keydown s : heap (useEffect_keydown s) = heap s.
Proof. unfold useEffect_keydown. now case_decide. Qed.

Lemma waypoints_useEffect_keydown s :
  waypoints (useEffect_keydown s) = waypoints s.
Proof. unfold useEffect_keydown. now case_decide. Qed.

Lemma interactions_useEffect_keydown s :
  interactions (useEffect_keydown s) = interactions s.
Proof. unfold useEffect_keydown. now case_decide. Qed.

Lemma drawingMode_useEffect_keydown s :
  drawingMode (useEffect_keydown s) = drawingMode s.
Proof. unfold useEffect_keydown. now case_decide. Qed.

Lemma state_of_step e s :
  state_of (step e s) = useEffect_keydown (state_of (handle e s)).
Proof. unfold step. now destruct (handle e s). Qed.

Lemma run_app es1 es2 s : run (es1 ++ es2) s = run es2 (run es1 s).
Proof. apply foldl_app. Qed.

Lemma run_cons e es s : run (e :: es) s = run es (state_of (step e s)).
Proof. reflexivity. Qed.

Lemma remove_sublist (x : nat) (l : list nat) : JS.remove x l `sublist_of` l.
Proof.
  induction l as [|y l IH]; simpl; [done|].
  case_decide; [by apply sublist_cons|by apply sublist_skip].
Qed.

Lemma remove_not_elem (x : nat) (l : list nat) : x ∉ l → JS.remove x l = l.
Proof.
  induction l as [|y l IH]; simpl; [done|].
  intros [Hxy Hl]%not_elem_of_cons. rewrite decide_False by done.
  f_equal. now apply IH.
Qed.

Lemma remove_NoDup_not_elem (x : nat) (l : list nat) :
  NoDup l → x ∉ JS.remove x l.
Proof.
  induction 1 as [|y l Hy Hl IH]; simpl; [apply not_elem_of_nil|].
  case_decide as Hxy; [now subst|].
  apply not_elem_of_cons. split; [congruence|done].
Qed.

Lemma Forall_remove (P : nat → Prop) (x : nat) (l : list nat) :
  Forall P l → Forall P (JS.remove x l).
Proof.
  induction 1 as [|y l Hy Hl IH]; simpl; [done|].
  case_decide; [done|by constructor].
Qed.

(** What [map.removeInteraction(draw)] leaves as it is. *)
Lemma removeInteraction_fields (draw : nat) s :
  map (removeInteraction draw s) = map s
  ∧ drawingMode (removeInteraction draw s) = drawingMode s
  ∧ waypoints (removeInteraction draw s) = waypoints s
  ∧ drawType (removeInteraction draw s) = drawType s
  ∧ selectedWaypoint (removeInteraction draw s) = selectedWaypoint s
  ∧ drawRef (removeInteraction draw s) = drawRef s
  ∧ keydown (removeInteraction draw s) = keydown s
  ∧ length (heap (removeInteraction draw s)) = length (heap s).
Proof.
  unfold removeInteraction. case_bool_decide; simpl; [|done].
  now rewrite length_alter.
Qed.

Lemma waypoints_removeInteraction (draw : nat) s :
  waypoints (removeInteraction draw s) = waypoints s.
Proof. apply removeInteraction_fields. Qed.

Lemma map_removeInteraction (draw : nat) s :
  map (removeInteraction draw s) = map s.
Proof. apply removeInteraction_fields. Qed.

Lemma drawingMode_removeInteraction (draw : nat) s :
  drawingMode (removeInteraction draw s) = drawingMode s.
Proof. apply removeInteraction_fields. Qed.

Lemma drawType_removeInteraction (draw : nat) s :
  drawType (removeInteraction draw s) = drawType s.
Proof. apply removeInteraction_fields. Qed.

Lemma selectedWaypoint_removeInteraction (draw : nat) s :
  selectedWaypoint (removeInteraction draw s) = selectedWaypoint s.
Proof. apply removeInteraction_fields. Qed.

Lemma drawRef_removeInteraction (draw : nat) s :
  drawRef (removeInteraction draw s) = drawRef s.
Proof. apply removeInteraction_fields. Qed.

Lemma keydown_removeInteraction (draw : nat) s :
  keydown (removeInteraction draw s) = keydown s.
Proof. apply removeInteraction_fields. Qed.

Lemma length_heap_removeInteraction (draw : nat) s :
  length (heap (removeInteraction draw s)) = length (heap s).
Proof. apply removeInteraction_fields. Qed.

Lemma interactions_removeInteraction (draw : nat) s :
  interactions (removeInteraction draw s) = JS.remove draw (interactions s).
Proof.
  unfold removeInteraction. case_bool_decide; simpl; [done|].
  symmetry. now apply remove_not_elem.
Qed.

Lemma removeInteraction_keeps_closure (draw k : nat) s d :
  heap s !! k = Some d →
  ∃ d', heap (removeInteraction draw s) !! k = Some d'
        ∧ on_drawend d' = on_drawend d.
Proof.
  intros Hd. unfold removeInteraction. case_bool_decide; simpl; [|eauto].
  destruct (decide (draw = k)) as [->|Hne].
  - exists (set_overlay [] d). split; [|done].
    now rewrite list_lookup_alter_eq, Hd.
  - exists d. split; [|done]. now rewrite list_lookup_alter_ne.
Qed.

Lemma removeInteraction_closure_origin (draw k : nat) s d' :
  heap (removeInteraction draw s) !! k = Some d' →
  ∃ d, heap s !! k = Some d ∧ on_drawend d' = on_drawend d.
Proof.
  unfold removeInteraction. case_bool_decide; simpl; [|eauto].
  destruct (decide (draw = k)) as [->|Hne].
  - rewrite list_lookup_alter_eq.
    destruct (heap s !! k) as [d|]; simpl; [|done].
    intros [= <-]. eauto.
  - rewrite list_lookup_alter_ne by done. eauto.
Qed.

(** The ways [handleKeyDown] can end. *)
Lemma handleKeyDown_cases key s :
  handleKeyDown key s = Returns s
  ∨ handleKeyDown key s = Throws s
  ∨ (drawRef s = None
     ∧ handleKeyDown key s = Returns (set_drawRef None (setDrawingMode None s)))
  ∨ (∃ draw : nat,
       drawRef s = Some draw ∧ key = "Enter" ∧
       (handleKeyDown key s = Throws (removeInteraction draw s)
        ∨ ∃ coords,
            handleKeyDown key s
            = Returns
                (set_drawRef None
                   (setDrawingMode None
                      (setWaypoints (λ prev, prev ++ formattedCoords coords)
                         (removeInteraction draw s)))))).
Proof.
  unfold handleKeyDown.
  destruct (String.eqb_spec key "Enter") as [->|Hne]; simpl; [|by left].
  destruct (bool_decide _); simpl; [|by left].
  destruct (drawRef s) as [k|]; simpl; [|by right; right; left].
  destruct (kd_map (keydown s)); simpl; [|by right; left].
  right. right. right. exists k. split; [done|]. split; [done|].
  destruct (heap (removeInteraction k s) !! k) as [dk|]; [|by left].
  destruct (overlay dk) as [|coords rest]; [by left|right; eauto].
Qed.

(** A Draw object keeps its listener for good: no handler replaces the
    closure of an interaction once it is created. *)
Lemma handle_keeps_closure e s (draw : nat) d :
  heap s !! draw = Some d →
  ∃ d', heap (state_of (handle e s)) !! draw = Some d'
        ∧ on_drawend d' = on_drawend d.
Proof.
  intros Hd. destruct e as [|ty|index pos|k features|k coords|key]; simpl.
  - eauto.
  - unfold addDrawingInteraction. destruct (map s); simpl; [|eauto].
    exists d. split; [|done]. now apply lookup_app_l_Some.
  - case_decide; simpl; [|eauto].
    unfold addDrawingInteraction. destruct (map s); simpl; [|eauto].
    exists d. split; [|done]. now apply lookup_app_l_Some.
  - case_bool_decide; simpl; [|eauto].
    destruct (decide (k = draw)) as [->|Hne].
    + exists (set_overlay features d). split; [|done].
      rewrite list_lookup_alter_eq, Hd. done.
    + exists d. split; [|done]. now rewrite list_lookup_alter_ne.
  - case_bool_decide; simpl; [|eauto].
    destruct (heap s !! k) as [dk|]; simpl; [|eauto].
    destruct (insertPosition (on_drawend dk)); eauto.
  - destruct (handleKeyDown_cases key s)
      as [->|[->|[[_ ->]|(k & _ & _ & [->|[coords ->]])]]]; simpl;
      eauto using removeInteraction_keeps_closure.
Qed.

Lemma step_keeps_closure e s (draw : nat) d :
  heap s !! draw = Some d →
  ∃ d', heap (state_of (step e s)) !! draw = Some d'
        ∧ on_drawend d' = on_drawend d.
Proof.
  intros Hd. rewrite state_of_step, heap_useEffect_keydown.
  now apply handle_keeps_closure.
Qed.

Lemma run_keeps_closure es s (draw : nat) d :
  heap s !! draw = Some d →
  ∃ d', heap (run es s) !! draw = Some d' ∧ on_drawend d' = on_drawend d.
Proof.
  revert s d. induction es as [|e es IH]; intros s d Hd; [eauto|].
  rewrite run_cons.
  destruct (step_keeps_closure e s draw d Hd) as (d1 & Hd1 & Heq1).
  destruct (IH _ _ Hd1) as (d2 & Hd2 & Heq2).
  exists d2. split; [done|]. now rewrite Heq2.
Qed.

(** What a 'drawend' event does to the waypoints. *)
Lemma waypoints_DrawEnd s (draw : nat) d coords :
  draw ∈ interactions s →
  heap s !! draw = Some d →
  step (DrawEnd draw coords) s
    = Returns (useEffect_keydown (drawend (on_drawend d) coords s)).
Proof.
  intros Hin Hd. unfold step; simpl.
  rewrite bool_decide_eq_true_2 by done. now rewrite Hd.
Qed.

(** Where the closure of a Draw object comes from: the object was there
    before the event, or the event is a click that began a session from
    the render [s]. *)
Lemma handle_closure_origin e s (draw : nat) d' :
  heap (state_of (handle e s)) !! draw = Some d' →
  (∃ d, heap s !! draw = Some d ∧ on_drawend d' = on_drawend d)
  ∨ (draw = length (heap s) ∧ map s = true ∧
     ((∃ ty, e = ClickDraw ty ∧
         d' = MkDraw (Closure ty None (waypoints s) (selectedWaypoint s)) [])
      ∨ (∃ index pos, e = Select index pos ∧
         (index < length (waypoints s))%nat ∧
         d' = MkDraw (Closure Polygon (Some pos) (waypoints s)
                        (selectedWaypoint s)) []))).
Proof.
  assert (Hnew : ∀ (h : list (Draw C)) (x : Draw C),
             (h ++ [x]) !! draw = Some d' →
             h !! draw = Some d' ∨ (draw = length h ∧ d' = x)).
  { intros h x H. apply lookup_app_Some in H as [H|[Hge H]]; [by left|right].
    destruct (draw - length h)%nat as [|n] eqn:Hn; simpl in H; [|done].
    split; [lia|congruence]. }
  destruct e as [|ty|index pos|k features|k coords|key]; simpl.
  - eauto.
  - unfold addDrawingInteraction. destruct (map s) eqn:Hm; simpl; [|eauto].
    intros Hl. apply Hnew in Hl as [Hl|[-> ->]]; [eauto|].
    right. repeat split. left. eauto.
  - case_decide; simpl; [|eauto].
    unfold addDrawingInteraction. destruct (map s) eqn:Hm; simpl; [|eauto].
    intros Hl. apply Hnew in Hl as [Hl|[-> ->]]; [eauto|].
    right. repeat split. right. eauto.
  - case_bool_decide; simpl; [|eauto].
    destruct (decide (k = draw)) as [->|Hne].
    + rewrite list_lookup_alter_eq.
      destruct (heap s !! draw) as [d|]; simpl; [|done].
      intros [= <-]. eauto.
    + rewrite list_lookup_alter_ne by done. eauto.
  - case_bool_decide; simpl; [|eauto].
    destruct (heap s !! k) as [dk|]; simpl; [|eauto].
    destruct (insertPosition (on_drawend dk)); eauto.
  - destruct (handleKeyDown_cases key s)
      as [->|[->|[[_ ->]|(k & _ & _ & [->|[coords ->]])]]]; simpl;
      eauto using removeInteraction_closure_origin.
Qed.

(** A property of closures that every newly begun session has holds of
    every Draw object of every state the component reaches. *)
Lemma reachable_closures (P : closure C → Prop) (Q : state C → Prop) :
  Q initial →
  (∀ e s, Q s → Q (state_of (step e s))) →
  (∀ s ty, Q s → P (Closure ty None (waypoints s) (selectedWaypoint s))) →
  (∀ s pos, Q s →
     P (Closure Polygon (Some pos) (waypoints s) (selectedWaypoint s))) →
  ∀ es (draw : nat) d,
    heap (run es initial) !! draw = Some d → P (on_drawend d).
Proof.
  intros Q0 Qstep Pclick Pselect es.
  assert (H : ∀ s, Q s → (∀ (draw : nat) d, heap s !! draw = Some d → P (on_drawend d))
              → Q (run es s) ∧
                ∀ (draw : nat) d, heap (run es s) !! draw = Some d → P (on_drawend d)).
  { induction es as [|e es IH]; intros s HQ HP; [done|].
    rewrite run_cons. apply IH; [by apply Qstep|].
    intros draw d. rewrite state_of_step, heap_useEffect_keydown.
    intros [(d0 & Hd0 & ->)|(_ & _ & [(ty & _ & ->)|(index & pos & _ & _ & ->)])]
      %handle_closure_origin; simpl; eauto. }
  intros draw d. apply H; [done|]. intros k d0 Hk. simpl in Hk.
  by rewrite lookup_nil in Hk.
Qed.

Lemma fmap_splice {A B : Type} (f : A → B) (l items : list A)
    (start deleteCount : Z) :
  f <$> JS.splice l start deleteCount items
  = JS.splice (f <$> l) start deleteCount (f <$> items).
Proof.
  unfold JS.splice. rewrite !length_fmap, !fmap_app, fmap_take, fmap_drop.
  done.
Qed.

Lemma rows_fmap (l : list (waypoint C)) :
  rows l = (λ point, (wp point, coordinates point)) <$> l.
Proof.
  unfold rows, JS.mapi.
  exact (imap_const (λ point, (wp point, coordinates point)) l).
Qed.

Lemma rows_formattedCoords coords :
  rows (formattedCoords coords) = imap (λ index c, (label index, c)) coords.
Proof.
  rewrite rows_fmap. unfold formattedCoords, JS.mapi.
  now rewrite fmap_imap_compose.
Qed.

End Facts.

(** ** Properties of the sessions, for every coordinate type *)

Section Sessions.

Context {C : Type}.
Implicit Types (s : state C) (e : event C) (es : list (event C)).
Implicit Types (d : Draw C) (coords : list C).

(** C8 — the conversion [coords.map(...)] of a finished gesture's
    coordinates, used by both completion paths, returns as many waypoints
    as there are coordinates, and the coordinates of the i-th waypoint
    are the i-th coordinates of the gesture: nothing is sorted, dropped
    or merged. *)
Theorem formattedCoords_keeps_vertices coords :
  length (formattedCoords coords) = length coords
  ∧ coordinates <$> formattedCoords coords = coords
  ∧ ∀ i : nat, coordinates <$> formattedCoords coords !! i = coords !! i.
Proof.
  split; [apply length_formattedCoords|].
  split; [apply coordinates_formattedCoords|].
  intros i. rewrite lookup_formattedCoords.
  now destruct (coords !! i).
Qed.

(** C9 — in every state the component reaches, every Draw interaction
    begun with an insert position (from the Dropdown of a row) has type
    Polygon, whichever side was chosen and whatever was drawn before;
    and a Dropdown choice that begins a session begins a Polygon one. *)
Theorem insertion_sessions_use_Polygon :
  (∀ es, Forall (λ d, is_Some (insertPosition (on_drawend d)) →
                      type (on_drawend d) = Polygon)
           (heap (run es (@initial C))))
  ∧ (∀ s index pos,
       let s' := state_of (step (Select index pos) s) in
       heap s' = heap s
       ∨ (heap s' = heap s ++
            [MkDraw (Closure Polygon (Some pos) (waypoints s)
                       (selectedWaypoint s)) []]
          ∧ drawingMode s' = Some Polygon
          ∧ drawRef s' = Some (length (heap s)))).
Proof.
  split.
  - intros es. apply Forall_lookup. intros draw d Hd.
    revert es draw d Hd.
    apply (reachable_closures
             (λ cl, is_Some (insertPosition cl) → type cl = Polygon)
             (λ _, True)); simpl; done.
  - intros s index pos s'. subst s'.
    rewrite state_of_step.
    unfold useEffect_keydown. simpl.
    destruct (decide (index < length (waypoints s))%nat); simpl.
    + unfold addDrawingInteraction; simpl.
      destruct (map s); simpl.
      * right. by case_decide.
      * left. by case_decide.
    + left. by case_decide.
Qed.

Lemma waypoints_drawend_insert (cl : closure C) pos coords s :
  insertPosition cl = Some pos →
  waypoints (drawend cl coords s)
  = JS.splice (cl_waypoints cl) (spliceStart pos (cl_selectedWaypoint cl)) 0
      (formattedCoords coords).
Proof. unfold drawend. intros ->. simpl. now destruct pos. Qed.

Lemma waypoints_drawend_append (cl : closure C) coords s :
  insertPosition cl = None →
  waypoints (drawend cl coords s) = waypoints s ++ formattedCoords coords.
Proof. unfold drawend. now intros ->. Qed.

(** C10 — a session begun from the Dropdown completes on the waypoints
    (and the selected index) of the render it was begun from: whatever
    events come between its start and its 'drawend', the sequence
    afterwards is that snapshot with the new block spliced in.  A session
    begun from a Draw button appends to the sequence as it is when its
    'drawend' fires. *)
Theorem insertion_completes_on_snapshot s es coords :
  map s = true →
  (∀ index pos,
     (index < length (waypoints s))%nat →
     let s' := run es (state_of (step (Select index pos) s)) in
     length (heap s) ∈ interactions s' →
     waypoints (state_of (step (DrawEnd (length (heap s)) coords) s'))
     = JS.splice (waypoints s) (spliceStart pos (selectedWaypoint s)) 0
         (formattedCoords coords))
  ∧ (∀ ty,
       let s' := run es (state_of (step (ClickDraw ty) s)) in
       length (heap s) ∈ interactions s' →
       waypoints (state_of (step (DrawEnd (length (heap s)) coords) s'))
       = waypoints s' ++ formattedCoords coords).
Proof.
  intros Hmap. split.
  - intros index pos Hlt s' Hin.
    assert (Hnew : heap (state_of (step (Select index pos) s))
                     !! length (heap s)
                   = Some (MkDraw (Closure Polygon (Some pos) (waypoints s)
                                     (selectedWaypoint s)) [])).
    { rewrite state_of_step, heap_useEffect_keydown. simpl.
      rewrite decide_True by done. simpl.
      unfold addDrawingInteraction. rewrite Hmap. simpl.
      by rewrite lookup_app_r, Nat.sub_diag by lia. }
    destruct (run_keeps_closure es _ _ _ Hnew) as (d' & Hd' & Hcl).
    fold s' in Hd'.
    rewrite (waypoints_DrawEnd s' _ d') by done. simpl.
    rewrite waypoints_useEffect_keydown.
    rewrite (waypoints_drawend_insert _ pos) by now rewrite Hcl.
    now rewrite Hcl.
  - intros ty s' Hin.
    assert (Hnew : heap (state_of (step (ClickDraw ty) s))
                     !! length (heap s)
                   = Some (MkDraw (Closure ty None (waypoints s)
                                     (selectedWaypoint s)) [])).
    { rewrite state_of_step, heap_useEffect_keydown. simpl.
      unfold addDrawingInteraction. rewrite Hmap. simpl.
      by rewrite lookup_app_r, Nat.sub_diag by lia. }
    destruct (run_keeps_closure es _ _ _ Hnew) as (d' & Hd' & Hcl).
    fold s' in Hd'.
    rewrite (waypoints_DrawEnd s' _ d') by done. simpl.
    rewrite waypoints_useEffect_keydown.
    apply waypoints_drawend_append. now rewrite Hcl.
Qed.

(** C1 (as amended) — the label shown for a waypoint is the one stored
    on it when its gesture ended, the zero-padded index of its vertex
    within that gesture: after a 'drawend' the rows shown are the rows of
    the sequence the session completes on, unchanged, with the rows
    [WP(00)], [WP(01)], ... of the new block spliced in or appended. *)
Theorem labels_are_stored s (draw : nat) d coords :
  draw ∈ interactions s →
  heap s !! draw = Some d →
  display (state_of (step (DrawEnd draw coords) s))
  = match insertPosition (on_drawend d) with
    | Some pos =>
        JS.splice (rows (cl_waypoints (on_drawend d)))
          (spliceStart pos (cl_selectedWaypoint (on_drawend d))) 0
          (imap (λ index c, (label index, c)) coords)
    | None => display s ++ imap (λ index c, (label index, c)) coords
    end.
Proof.
  intros Hin Hd. unfold display.
  rewrite (waypoints_DrawEnd s draw d) by done. simpl.
  rewrite waypoints_useEffect_keydown.
  destruct (insertPosition (on_drawend d)) as [pos|] eqn:Hpos.
  - rewrite (waypoints_drawend_insert _ pos) by done.
    rewrite !rows_fmap, fmap_splice, <- !rows_fmap.
    now rewrite rows_formattedCoords.
  - rewrite waypoints_drawend_append by done.
    rewrite !rows_fmap, fmap_app, <- !rows_fmap.
    now rewrite rows_formattedCoords.
Qed.

End Sessions.

(** ** The sessions on the scenarios *)

Section OnScenarios.

Import Scenario.
Local Open Scope Z_scope.

Local Ltac attached := vm_compute; repeat constructor.

(** C1, counterexample — after the line of three and the insertion of
    two points before row 1, the rows shown are not numbered by their
    place in the sequence: each keeps the label of its own gesture (and
    the block, begun while no row had been selected, stands in front);
    likewise when the callback holds index 1. *)
Lemma labels_are_not_positional :
  display (run insert_before_1 initial)
  = [("WP(00)", [9; 9]); ("WP(01)", [8; 8]); ("WP(00)", [0; 0]);
     ("WP(01)", [1; 1]); ("WP(02)", [2; 2])]
  ∧ display (run insert_before_1 initial)
    ≠ [("WP(00)", [0; 0]); ("WP(01)", [9; 9]); ("WP(02)", [8; 8]);
       ("WP(03)", [1; 1]); ("WP(04)", [2; 2])]
  ∧ display (run (row_1_chosen_twice ++ [DrawEnd 2%nat block]) initial)
    ≠ [("WP(00)", [0; 0]); ("WP(01)", [9; 9]); ("WP(02)", [8; 8]);
       ("WP(03)", [1; 1]); ("WP(04)", [2; 2])].
Proof. vm_compute. repeat split; discriminate. Qed.

(** The rows after two points are inserted by the session that holds
    index 1 and side before. *)
Lemma labels_are_stored_on_scenario :
  (2%nat ∈ interactions (run row_1_chosen_twice initial)
   ∧ heap (run row_1_chosen_twice initial) !! 2%nat = Some holds_index_1)
  ∧ display
      (state_of (step (DrawEnd 2%nat block) (run row_1_chosen_twice initial)))
    = [("WP(00)", [0; 0]); ("WP(00)", [9; 9]); ("WP(01)", [8; 8]);
       ("WP(01)", [1; 1]); ("WP(02)", [2; 2])].
Proof.
  assert (Hin : 2%nat ∈ interactions (run row_1_chosen_twice initial))
    by attached.
  assert (Hd : heap (run row_1_chosen_twice initial) !! 2%nat
               = Some holds_index_1) by reflexivity.
  split; [split; assumption|].
  rewrite (labels_are_stored _ 2%nat holds_index_1 block Hin Hd).
  reflexivity.
Defined.

(** Between the start of a session and its 'drawend', interaction 0 adds
    the waypoint at (5,5): the Dropdown session drops it, the Draw button
    session keeps it. *)
Lemma insertion_completes_on_snapshot_on_scenario :
  let s := run drawn_line initial in
  let between := [DrawEnd 0%nat [[5; 5]]] in
  let inserting := run between (state_of (step (Select 1%nat before) s)) in
  let appending := run between (state_of (step (ClickDraw LineString) s)) in
  (map s = true ∧ (1 < length (waypoints s))%nat
   ∧ 1%nat ∈ interactions inserting ∧ 1%nat ∈ interactions appending)
  ∧ waypoints (state_of (step (DrawEnd 1%nat block) inserting))
    = [Waypoint "WP(00)" [9; 9]; Waypoint "WP(01)" [8; 8];
       Waypoint "WP(00)" [0; 0]; Waypoint "WP(01)" [1; 1];
       Waypoint "WP(02)" [2; 2]]
  ∧ waypoints (state_of (step (DrawEnd 1%nat block) appending))
    = [Waypoint "WP(00)" [0; 0]; Waypoint "WP(01)" [1; 1];
       Waypoint "WP(02)" [2; 2]; Waypoint "WP(00)" [5; 5];
       Waypoint "WP(00)" [9; 9]; Waypoint "WP(01)" [8; 8]].
Proof.
  intros s between inserting appending.
  assert (Hmap : map s = true) by (vm_compute; reflexivity).
  assert (Hlt : (1 < length (waypoints s))%nat) by (vm_compute; lia).
  assert (Hin1 : 1%nat ∈ interactions inserting) by attached.
  assert (Hin2 : 1%nat ∈ interactions appending) by attached.
  split; [repeat split; assumption|].
  destruct (insertion_completes_on_snapshot s between block Hmap)
    as [Hins Happ].
  specialize (Hins 1%nat before Hlt Hin1).
  specialize (Happ LineString Hin2).
  vm_compute in Hins, Happ. vm_compute.
  split; [exact Hins|exact Happ].
Defined.

(** C2 — a session begun from the Dropdown of row 0 after the line of
    three, with anything in its sketch overlay: Enter takes the
    interaction off the map, which empties the overlay, throws on the
    missing first feature and leaves the three waypoints, where 'drawend'
    splices the new block in front of them. *)
Theorem Enter_throws_where_drawend_splices :
  let s := run insert_before_0 initial in
  (∀ features,
     let sketched := state_of (step (Sketch 1%nat features) s) in
     (∃ s', step (KeyDown "Enter") sketched = Throws s'
            ∧ waypoints s' = waypoints s)
     ∧ waypoints (state_of (step (KeyDown "Enter") sketched))
       ≠ waypoints (state_of (step (DrawEnd 1%nat block) sketched)))
  ∧ coordinates <$>
      waypoints (run [Sketch 1%nat [block]; KeyDown "Enter"] s)
    = [[0; 0]; [1; 1]; [2; 2]]
  ∧ coordinates <$>
      waypoints (run [Sketch 1%nat [block]; DrawEnd 1%nat block] s)
    = [[9; 9]; [8; 8]; [0; 0]; [1; 1]; [2; 2]].
Proof.
  intros s. split; [|split; vm_compute; reflexivity].
  intros features sketched. split.
  - eexists. split; vm_compute; reflexivity.
  - vm_compute. intros H. inversion H.
Qed.

(** C4 — from the line of three, with no row chosen before: Insert
    Polygon After in row 2 puts the block at offset 1 and not at 3, and
    Insert Polygon Before in row 1 puts it at offset 0 and not at 1.  The
    callback holds the [selectedWaypoint] of the render the Dropdown was
    clicked in, which is still null. *)
Theorem insertion_misses_the_chosen_row :
  let s := run drawn_line initial in
  coordinates <$> waypoints (run [Select 2%nat after; DrawEnd 1%nat block] s)
  = [[0; 0]; [9; 9]; [8; 8]; [1; 1]; [2; 2]]
  ∧ coordinates <$>
      waypoints (run [Select 2%nat after; DrawEnd 1%nat block] s)
    ≠ [[0; 0]; [1; 1]; [2; 2]; [9; 9]; [8; 8]]
  ∧ coordinates <$>
      waypoints (run [Select 1%nat before; DrawEnd 1%nat block] s)
    = [[9; 9]; [8; 8]; [0; 0]; [1; 1]; [2; 2]]
  ∧ coordinates <$>
      waypoints (run [Select 1%nat before; DrawEnd 1%nat block] s)
    ≠ [[0; 0]; [9; 9]; [8; 8]; [1; 1]; [2; 2]].
Proof. vm_compute. repeat split; discriminate. Qed.

(** C6 — the last row (index 3) of a sequence of four is chosen, twice,
    so that the callback of interaction 3 holds index 3 and side after;
    before its gesture ends the sequence has become
    [(7,7); (0,0); (1,1)], in which index 3 is past the end.  The 'drawend' does not put the block
    at the end of that sequence: it brings back the four waypoints the
    callback holds and puts the block behind them. *)
Theorem stale_index_rebuilds_from_the_snapshot :
  let s := run shrunk_before_completion initial in
  coordinates <$> waypoints s = [[7; 7]; [0; 0]; [1; 1]]
  ∧ (3%nat ∈ interactions s
     ∧ (λ d, (insertPosition (on_drawend d),
              cl_selectedWaypoint (on_drawend d))) <$> heap s !! 3%nat
       = Some (Some after, Some 3))
  ∧ coordinates <$> waypoints (state_of (step (DrawEnd 3%nat [[6; 6]]) s))
    = [[0; 0]; [1; 1]; [2; 2]; [3; 3]; [6; 6]]
  ∧ coordinates <$> waypoints (state_of (step (DrawEnd 3%nat [[6; 6]]) s))
    ≠ [[7; 7]; [0; 0]; [1; 1]; [6; 6]].
Proof.
  intros s. split; [vm_compute; reflexivity|].
  split; [split; [vm_compute; repeat constructor|vm_compute; reflexivity]|].
  vm_compute. split; [reflexivity|discriminate].
Qed.

(** C3 — after two clicks on Draw buttons both interactions are attached
    to the map, [drawRef] naming the second only, and the 'drawend' of the
    first still adds its waypoints to the sequence. *)
Theorem first_session_stays_attached :
  let s := run two_sessions initial in
  interactions s = [0; 1]%nat
  ∧ drawRef s = Some 1%nat
  ∧ drawingMode s = Some Polygon
  ∧ waypoints s = []
  ∧ waypoints (state_of (step (DrawEnd 0%nat line) s))
    = [Waypoint "WP(00)" [0; 0]; Waypoint "WP(01)" [1; 1];
       Waypoint "WP(02)" [2; 2]].
Proof. vm_compute. repeat split. Qed.

(** C5 — Enter while the sketch overlay of the current interaction has
    no feature throws after the interaction is taken off the map, and
    [drawingMode] and [drawRef] stay as they were; and the 'drawend' of an
    insertion session with no coordinates puts back the sequence its
    callback holds, here three waypoints where there were four. *)
Theorem empty_completion_is_not_a_cancellation :
  (∃ s', step (KeyDown "Enter") (run nothing_sketched initial) = Throws s'
         ∧ drawingMode s' = Some LineString
         ∧ drawRef s' = Some 0%nat
         ∧ interactions s' = [])
  ∧ (let s := run (insert_before_0 ++ [DrawEnd 0%nat [[5; 5]]]) initial in
     coordinates <$> waypoints s = [[0; 0]; [1; 1]; [2; 2]; [5; 5]]
     ∧ coordinates <$> waypoints (state_of (step (DrawEnd 1%nat []) s))
       = [[0; 0]; [1; 1]; [2; 2]]).
Proof.
  split.
  - eexists. split; [vm_compute; reflexivity|]. vm_compute. repeat split.
  - vm_compute. repeat split.
Qed.

(** C7 — Enter throws when a session has just been begun, from either
    Draw button or from a Dropdown, and nothing has been sketched. *)
Theorem Enter_throws_on_empty_sketch :
  (∀ ty, ∃ s',
     step (KeyDown "Enter") (run [Mounted; ClickDraw ty] (@initial (list Z)))
     = Throws s')
  ∧ (∀ pos, ∃ s',
       step (KeyDown "Enter") (run (drawn_line ++ [Select 0%nat pos]) initial)
       = Throws s').
Proof.
  split.
  - intros ty. destruct ty; eexists; vm_compute; reflexivity.
  - intros pos. destruct pos; eexists; vm_compute; reflexivity.
Qed.

End OnScenarios.

(** ** The labels *)

Section Labels.

Local Open Scope nat_scope.

Lemma append_char_inj (s1 s2 : string) (c : Ascii.ascii) :
  s1 +:+ String c "" = s2 +:+ String c "" → s1 = s2.
Proof.
  revert s2. induction s1 as [|a s1 IH]; intros [|b s2] H; simpl in H.
  - done.
  - injection H as _ H. destruct s2; discriminate.
  - injection H as _ H. destruct s1; discriminate.
  - injection H as -> H. f_equal. now apply IH.
Qed.

Lemma toString_inj (n m : nat) : JS.toString n = JS.toString m → n = m.
Proof.
  unfold JS.toString. intros H.
  apply DecimalNat.Unsigned.to_uint_inj.
  apply (f_equal NilEmpty.uint_of_string) in H.
  rewrite !NilEmpty.usu in H. congruence.
Qed.

(** An index is written without a leading zero, [0] itself apart. *)
Lemma toString_leading_zero (n : nat) (rest : string) :
  JS.toString n = "0" +:+ rest → rest = "".
Proof.
  unfold JS.toString. simpl. intros H.
  assert (Hn : Nat.to_uint n = Decimal.unorm (Nat.to_uint n)).
  { rewrite <- DecimalNat.Unsigned.to_of.
    now rewrite DecimalNat.Unsigned.of_to. }
  destruct (Nat.to_uint n) as [|u|u|u|u|u|u|u|u|u|u] eqn:E;
    simpl in H; try discriminate.
  injection H as H.
  rewrite DecimalFacts.unorm_D0 in Hn.
  destruct (Decimal.nzhead u) as [|v|v|v|v|v|v|v|v|v|v] eqn:Ev.
  - assert (Hz : Decimal.unorm u = Decimal.zero)
      by now apply DecimalFacts.unorm_0.
    rewrite Hz in Hn. injection Hn as ->. exact (eq_sym H).
  - exfalso. now apply (DecimalFacts.nzhead_nonzero u v).
  - rewrite DecimalFacts.unorm_nzhead, Ev in Hn by (rewrite Ev; discriminate).
    discriminate.
  - rewrite DecimalFacts.unorm_nzhead, Ev in Hn by (rewrite Ev; discriminate).
    discriminate.
  - rewrite DecimalFacts.unorm_nzhead, Ev in Hn by (rewrite Ev; discriminate).
    discriminate.
  - rewrite DecimalFacts.unorm_nzhead, Ev in Hn by (rewrite Ev; discriminate).
    discriminate.
  - rewrite DecimalFacts.unorm_nzhead, Ev in Hn by (rewrite Ev; discriminate).
    discriminate.
  - rewrite DecimalFacts.unorm_nzhead, Ev in Hn by (rewrite Ev; discriminate).
    discriminate.
  - rewrite DecimalFacts.unorm_nzhead, Ev in Hn by (rewrite Ev; discriminate).
    discriminate.
  - rewrite DecimalFacts.unorm_nzhead, Ev in Hn by (rewrite Ev; discriminate).
    discriminate.
  - rewrite DecimalFacts.unorm_nzhead, Ev in Hn by (rewrite Ev; discriminate).
    discriminate.
Qed.

(** One digit below ten, two or more from ten on. *)
Lemma length_toString (n : nat) :
  if decide (n < 10) then String.length (JS.toString n) = 1
  else 2 ≤ String.length (JS.toString n).
Proof.
  case_decide as Hn.
  - do 10 (destruct n as [|n]; [reflexivity|]). lia.
  - unfold JS.toString.
    pose proof (DecimalNat.Unsigned.of_to n) as Hof.
    destruct (Nat.to_uint n) as [|u|u|u|u|u|u|u|u|u|u];
      [exfalso; vm_compute in Hof; lia|..];
      (destruct u; [exfalso; vm_compute in Hof; lia|simpl; lia..]).
Qed.

Lemma padStart_toString (n : nat) :
  JS.padStart (JS.toString n) 2 "0"
  = (if decide (n < 10) then "0" else "") +:+ JS.toString n.
Proof.
  unfold JS.padStart. pose proof (length_toString n) as Hlen.
  destruct (decide (n < 10)) as [Hn|Hn].
  - rewrite Hlen. reflexivity.
  - now rewrite decide_True by done.
Qed.

Lemma label_inj (n m : nat) : label n = label m → n = m.
Proof.
  unfold label. rewrite !padStart_toString. intros H.
  simpl in H. injection H as H.
  pose proof (length_toString n) as Hn. pose proof (length_toString m) as Hm.
  destruct (decide (n < 10)), (decide (m < 10)).
  - simpl in H. injection H as H.
    apply toString_inj. eapply append_char_inj. exact H.
  - exfalso.
    change (("0" +:+ JS.toString n) +:+ ")" = JS.toString m +:+ ")") in H.
    apply append_char_inj in H. symmetry in H.
    apply toString_leading_zero in H. rewrite H in Hn. discriminate.
  - exfalso.
    change (JS.toString n +:+ ")" = ("0" +:+ JS.toString m) +:+ ")") in H.
    apply append_char_inj in H.
    apply toString_leading_zero in H. rewrite H in Hm. discriminate.
  - apply toString_inj. eapply append_char_inj. exact H.
Qed.

(** X1 — the label of an index is [WP(], the index in decimal with a
    zero in front when it is below ten, and [)]: indices from ten on are
    written in full, those from a hundred on with more than two digits. *)
Theorem label_pads_below_ten (index : nat) :
  label index
  = "WP(" +:+ (if decide (index < 10) then "0" else "")
      +:+ JS.toString index +:+ ")".
Proof. unfold label. rewrite padStart_toString. now case_decide. Qed.

(** X2 — two different indices never get the same label, so the
    waypoints made from one gesture carry pairwise distinct labels. *)
Theorem labels_of_a_gesture_are_distinct {C : Type} (coords : list C) :
  NoDup (wp <$> formattedCoords coords)
  ∧ ∀ n m : nat, label n = label m → n = m.
Proof.
  split; [|exact label_inj].
  unfold formattedCoords, JS.mapi. rewrite fmap_imap_compose. simpl.
  rewrite (imap_seq_0 coords label).
  apply NoDup_fmap_2; [exact label_inj|apply NoDup_seq].
Qed.

End Labels.

(** ** What every reachable state satisfies *)

Section Invariants.

Context {C : Type}.
Implicit Types (s : state C) (e : event C) (es : list (event C)).

Local Open Scope nat_scope.

Lemma keydown_useEffect_keydown s :
  kd_drawingMode (keydown (useEffect_keydown s)) = drawingMode s.
Proof. unfold useEffect_keydown. now case_decide. Qed.

Lemma useEffect_keydown_id s :
  kd_drawingMode (keydown s) = drawingMode s → useEffect_keydown s = s.
Proof. intros H. unfold useEffect_keydown. now rewrite decide_True. Qed.

(** Beginning a session from a render with a map keeps the references
    sound. *)
Lemma addDrawingInteraction_sound (r s : state C) ty ins :
  map s = map r →
  (∀ draw : nat, drawRef s = Some draw → draw < length (heap s)) →
  Forall (λ draw : nat, draw < length (heap s)) (interactions s) →
  NoDup (interactions s) →
  (is_Some (drawingMode s) → map s = true ∧ is_Some (drawRef s)) →
  let s' := addDrawingInteraction r ty ins s in
  keydown s' = keydown s
  ∧ (is_Some (drawingMode s') → map s' = true ∧ is_Some (drawRef s'))
  ∧ (∀ draw : nat, drawRef s' = Some draw → draw < length (heap s'))
  ∧ Forall (λ draw : nat, draw < length (heap s')) (interactions s')
  ∧ NoDup (interactions s').
Proof.
  intros Hmap Href Hint Hnd Hmode s'. subst s'.
  unfold addDrawingInteraction. destruct (map r) eqn:Hr; [|done].
  simpl. rewrite length_app. simpl.
  split; [done|]. split; [by eauto|].
  split; [intros draw [= <-]; lia|].
  split.
  - apply Forall_app. split; [|constructor; [lia|constructor]].
    eapply Forall_impl; [exact Hint|]. simpl. intros; lia.
  - apply NoDup_app. split; [done|]. split; [|apply NoDup_singleton].
    intros x Hx ->%list_elem_of_singleton.
    rewrite Forall_forall in Hint. specialize (Hint _ Hx). lia.
Qed.

Lemma handle_well_formed e s :
  well_formed s →
  let s' := state_of (handle e s) in
  keydown s' = keydown s
  ∧ (is_Some (drawingMode s') → map s' = true ∧ is_Some (drawRef s'))
  ∧ (∀ draw : nat, drawRef s' = Some draw → draw < length (heap s'))
  ∧ Forall (λ draw : nat, draw < length (heap s')) (interactions s')
  ∧ NoDup (interactions s').
Proof.
  intros (Hkd & Hmode & Href & Hint & Hnd) s'. subst s'.
  assert (Hmode' : is_Some (drawingMode s) → map s = true ∧ is_Some (drawRef s))
    by (intros H; destruct (Hmode H) as (? & _ & ?); done).
  destruct e as [|ty|index pos|k features|k coords|key]; simpl.
  - repeat split; try done. now apply Hmode'.
  - now apply addDrawingInteraction_sound.
  - case_decide; simpl; [|done].
    now apply (addDrawingInteraction_sound s
                 (setSelectedWaypoint (Some (Z.of_nat index)) s)).
  - case_bool_decide; simpl; [|done]. rewrite length_alter. done.
  - case_bool_decide; simpl; [|done].
    destruct (heap s !! k) as [dk|]; simpl; [|done].
    unfold drawend.
    destruct (insertPosition (on_drawend dk)); simpl;
      (repeat split; try done; intros [? [=]]).
  - destruct (handleKeyDown_cases key s)
      as [->|[->|[[Hk ->]|(k & Hk & _ & [->|[coords ->]])]]]; simpl;
      rewrite ?keydown_removeInteraction, ?drawingMode_removeInteraction,
        ?map_removeInteraction, ?drawRef_removeInteraction,
        ?length_heap_removeInteraction, ?interactions_removeInteraction;
      (split; [done|]);
      (split; [first [exact Hmode'|intros [? [=]]]|]);
      (split; [first [exact Href|intros ? [=]]|]);
      (split; [first [exact Hint|now apply Forall_remove]|]);
      first [exact Hnd|exact (sublist_NoDup _ _ Hnd (remove_sublist _ _))].
Qed.

Lemma step_well_formed e s :
  well_formed s → well_formed (state_of (step e s)).
Proof.
  intros Hwf.
  destruct (handle_well_formed e s Hwf) as (Hkd' & Hmode' & Href' & Hint' & Hnd').
  destruct Hwf as (Hkd & Hmode & _).
  rewrite state_of_step.
  set (s' := state_of (handle e s)) in *.
  unfold well_formed. rewrite keydown_useEffect_keydown.
  unfold useEffect_keydown.
  destruct (decide (kd_drawingMode (keydown s') = drawingMode s')) as [Heq|Hne];
    simpl.
  - repeat split; try done; try (now apply Hmode').
    rewrite Hkd'. apply Hmode. rewrite <- Hkd, <- Hkd', Heq. done.
  - repeat split; try done; now apply Hmode'.
Qed.

Lemma initial_well_formed : well_formed (@initial C).
Proof.
  unfold well_formed; simpl.
  split; [done|]. split; [intros [? [=]]|]. split; [intros ? [=]|].
  split; constructor.
Qed.

Lemma run_well_formed es s : well_formed s → well_formed (run es s).
Proof.
  revert s. induction es as [|e es IH]; intros s Hwf; [done|].
  rewrite run_cons. apply IH. now apply step_well_formed.
Qed.

Lemma elem_of_remove_ne (x y : nat) (l : list nat) :
  x ≠ y → x ∈ l → x ∈ JS.remove y l.
Proof.
  intros Hne. induction l as [|z l IH]; simpl; [done|].
  intros [->|Hx]%elem_of_cons.
  - rewrite decide_False by done. by left.
  - case_decide; [done|]. right. by apply IH.
Qed.

Lemma removeInteraction_detached (k : nat) s :
  detached_are_idle s → detached_are_idle (removeInteraction k s).
Proof.
  intros Hs draw d. unfold removeInteraction.
  case_bool_decide; simpl; [|apply Hs].
  destruct (decide (k = draw)) as [->|Hne].
  - rewrite list_lookup_alter_eq.
    destruct (heap s !! draw) as [d0|]; simpl; [|done].
    now intros [= <-] _.
  - rewrite list_lookup_alter_ne by done. intros Hd Hout.
    apply (Hs draw d Hd). intros Hin. apply Hout.
    now apply elem_of_remove_ne.
Qed.

Lemma addDrawingInteraction_detached (r s : state C) ty ins :
  detached_are_idle s → detached_are_idle (addDrawingInteraction r ty ins s).
Proof.
  intros Hs draw d. unfold addDrawingInteraction.
  destruct (map r); [|apply Hs]. simpl.
  intros Hd Hout. apply not_elem_of_app in Hout as [Hout _].
  apply lookup_app_Some in Hd as [Hd|[_ Hd]]; [by apply (Hs draw d)|].
  destruct (draw - length (heap s)) as [|n]; simpl in Hd; [|done].
  now injection Hd as <-.
Qed.

Lemma step_detached e s :
  detached_are_idle s → detached_are_idle (state_of (step e s)).
Proof.
  intros Hs.
  assert (E : ∀ s', detached_are_idle s' →
                    detached_are_idle (useEffect_keydown s'))
    by (intros s' H; unfold useEffect_keydown; now case_decide).
  rewrite state_of_step. apply E.
  destruct e as [|ty|index pos|k features|k coords|key]; simpl.
  - done.
  - now apply addDrawingInteraction_detached.
  - case_decide; simpl; [|done].
    now apply (addDrawingInteraction_detached s
                 (setSelectedWaypoint (Some (Z.of_nat index)) s)).
  - case_bool_decide as Hk; simpl; [|done].
    intros draw d. simpl.
    destruct (decide (k = draw)) as [->|Hne]; [done|].
    rewrite list_lookup_alter_ne by done. apply Hs.
  - case_bool_decide; simpl; [|done].
    destruct (heap s !! k) as [dk|]; simpl; [|done].
    unfold drawend. now destruct (insertPosition (on_drawend dk)).
  - destruct (handleKeyDown_cases key s)
      as [->|[->|[[_ ->]|(k & _ & _ & [->|[coords ->]])]]]; simpl;
      first [done|now apply removeInteraction_detached
            |exact (removeInteraction_detached k s Hs)].
Qed.

Lemma run_detached es s :
  detached_are_idle s → detached_are_idle (run es s).
Proof.
  revert s. induction es as [|e es IH]; intros s Hs; [done|].
  rewrite run_cons. apply IH. now apply step_detached.
Qed.

Lemma initial_detached : detached_are_idle (@initial C).
Proof. intros draw d Hd. simpl in Hd. by rewrite lookup_nil in Hd. Qed.

End Invariants.

(** ** The handlers in the states the component reaches *)

Section Behaviour.

Context {C : Type}.
Implicit Types (s : state C) (e : event C) (es : list (event C)).
Implicit Types (d : Draw C) (coords : list C).

Local Open Scope nat_scope.

(** X3 — in every state the component reaches, the key listener on the
    window was registered with the current [drawingMode]; while a drawing
    mode is set there is a map, the listener has it, and [drawRef] holds a
    Draw; [drawRef] and the map's interactions only name Draw objects that
    exist, and no interaction is attached twice. *)
Theorem reachable_states_are_well_formed es :
  well_formed (run es (@initial C)).
Proof. apply run_well_formed, initial_well_formed. Qed.

(** What Enter does while a drawing mode is set. *)
Lemma Enter_well_formed s ty :
  well_formed s →
  detached_are_idle s →
  drawingMode s = Some ty →
  ∃ draw : nat,
    drawRef s = Some draw
    ∧ step (KeyDown "Enter") s = Throws (removeInteraction draw s).
Proof.
  intros (Hkd & Hmode & Href & _) Hidle Hty.
  destruct Hmode as (_ & Hkm & [draw Hdraw]); [by rewrite Hty|].
  exists draw. split; [done|].
  assert (Hov : ∃ d, heap (removeInteraction draw s) !! draw = Some d
                     ∧ overlay d = []).
  { destruct (lookup_lt_is_Some_2 (heap s) draw (Href _ Hdraw)) as [d Hd].
    unfold removeInteraction. case_bool_decide as Hin; simpl.
    - exists (set_overlay [] d). split; [|done].
      now rewrite list_lookup_alter_eq, Hd.
    - exists d. split; [done|]. now apply (Hidle draw). }
  destruct Hov as (d & Hd & Hov).
  unfold step. simpl. unfold handleKeyDown.
  rewrite Hkd, Hty, Hdraw, Hkm. simpl. rewrite Hd, Hov.
  f_equal. apply useEffect_keydown_id.
  now rewrite keydown_removeInteraction, drawingMode_removeInteraction.
Qed.

(** X4 — Enter while a drawing mode is set, in any state the component
    reaches, never completes the session: [drawRef] holds a Draw, Enter
    takes it off the map, which empties its sketch overlay, and throws on
    the missing first feature; the waypoints, [drawingMode], [drawRef]
    and [drawType] stay as they were. *)
Theorem Enter_in_a_session es ty :
  let s := run es (@initial C) in
  drawingMode s = Some ty →
  ∃ (draw : nat) s',
    drawRef s = Some draw
    ∧ step (KeyDown "Enter") s = Throws s'
    ∧ interactions s' = JS.remove draw (interactions s)
    ∧ (draw ∉ interactions s')
    ∧ waypoints s' = waypoints s
    ∧ drawingMode s' = Some ty
    ∧ drawRef s' = Some draw
    ∧ drawType s' = drawType s.
Proof.
  intros s Hty.
  assert (Hwf : well_formed s) by apply run_well_formed, initial_well_formed.
  assert (Hidle : detached_are_idle s)
    by apply run_detached, initial_detached.
  destruct (Enter_well_formed s ty Hwf Hidle Hty) as (draw & Hdraw & Hstep).
  exists draw, (removeInteraction draw s).
  rewrite interactions_removeInteraction, waypoints_removeInteraction,
    drawingMode_removeInteraction, drawRef_removeInteraction,
    drawType_removeInteraction.
  repeat split; try done.
  apply remove_NoDup_not_elem, Hwf.
Qed.

Lemma keydown_inactive s key :
  well_formed s →
  drawingMode s = None ∨ key ≠ "Enter" →
  step (KeyDown key) s = Returns s.
Proof.
  intros (Hkd & _) Hor.
  assert (Hh : handle (KeyDown key) s = Returns s).
  { simpl. unfold handleKeyDown. destruct Hor as [Hnone|Hkey].
    - rewrite Hkd, Hnone. now rewrite andb_false_r.
    - destruct (String.eqb_spec key "Enter") as [->|_]; done. }
  unfold step. rewrite Hh. f_equal. now apply useEffect_keydown_id.
Qed.

(** X5 — outside a drawing mode, and for every key that is not Enter, a
    keydown changes nothing, in any state the component reaches. *)
Theorem keydown_outside_a_session es key :
  let s := run es (@initial C) in
  drawingMode s = None ∨ key ≠ "Enter" →
  step (KeyDown key) s = Returns s.
Proof.
  intros s. apply keydown_inactive, run_well_formed, initial_well_formed.
Qed.

Lemma map_step e s : map s = true → map (state_of (step e s)) = true.
Proof.
  intros Hm. rewrite state_of_step.
  assert (E : ∀ s', map (useEffect_keydown s') = map s')
    by (intros; unfold useEffect_keydown; now case_decide).
  rewrite E.
  destruct e as [|ty|index pos|k features|k coords|key]; simpl; try done.
  - unfold addDrawingInteraction. now rewrite Hm.
  - case_decide; simpl; [|done].
    unfold addDrawingInteraction. now rewrite Hm.
  - now case_bool_decide.
  - case_bool_decide; simpl; [|done].
    destruct (heap s !! k) as [dk|]; simpl; [|done].
    unfold drawend. now destruct (insertPosition (on_drawend dk)).
  - destruct (handleKeyDown_cases key s)
      as [->|[->|[[_ ->]|(k & _ & _ & [->|[coords ->]])]]]; simpl;
      rewrite ?selectedWaypoint_removeInteraction, ?map_removeInteraction;
      done.
Qed.

Lemma map_run es s : map s = true → map (run es s) = true.
Proof.
  revert s. induction es as [|e es IH]; intros s Hm; [done|].
  rewrite run_cons. now apply IH, map_step.
Qed.

Lemma step_initial e :
  state_of (step e (@initial C)) = initial
  ∨ map (state_of (step e (@initial C))) = true.
Proof.
  destruct e as [|ty|index pos|k features|k coords|key].
  - right. reflexivity.
  - left. reflexivity.
  - left. unfold step, handle.
    destruct (decide (index < length (waypoints (@initial C)))) as [H|H];
      [simpl in H; lia|reflexivity].
  - left. reflexivity.
  - left. reflexivity.
  - left. unfold step. simpl. unfold handleKeyDown. simpl.
    now rewrite andb_false_r.
Qed.

(** X6 — until the map is there nothing happens: a state the component
    reaches is the one of the first render, or has a map, and then every
    later state has one too. *)
Theorem nothing_happens_before_the_map es1 es2 :
  run es1 (@initial C) = initial
  ∨ map (run (es1 ++ es2) (@initial C)) = true.
Proof.
  rewrite run_app.
  assert (H : run es1 (@initial C) = initial
              ∨ map (run es1 (@initial C)) = true).
  { induction es1 as [|e es1 IH] using rev_ind; [by left|].
    rewrite run_app. simpl. destruct IH as [->|Hm].
    - apply step_initial.
    - right. now apply map_step. }
  destruct H as [H|H]; [by left|right]. now apply map_run.
Qed.

(** X7 — the waypoints change on a 'drawend' and on Enter only: every
    other event, the clicks that begin a session among them, leaves the
    sequence as it is. *)
Theorem only_completions_change_waypoints e s :
  waypoints (state_of (step e s)) = waypoints s
  ∨ (∃ (draw : nat) coords, e = DrawEnd draw coords)
  ∨ e = KeyDown "Enter".
Proof.
  rewrite state_of_step, waypoints_useEffect_keydown.
  destruct e as [|ty|index pos|k features|k coords|key]; simpl.
  - by left.
  - left. unfold addDrawingInteraction. now destruct (map s).
  - left. case_decide; simpl; [|done].
    unfold addDrawingInteraction. now destruct (map s).
  - left. now case_bool_decide.
  - right. left. eauto.
  - unfold handleKeyDown.
    destruct (String.eqb_spec key "Enter") as [->|Hne]; [by right; right|].
    by left.
Qed.

(** A step in which no Dropdown is used, from a state whose sessions were
    all begun from the Draw buttons. *)
Lemma step_without_Select e s :
  is_Select e = false →
  Forall (λ d, insertPosition (on_drawend d) = None) (heap s) →
  Forall (λ d, insertPosition (on_drawend d) = None)
    (heap (state_of (step e s)))
  ∧ waypoints s `prefix_of` waypoints (state_of (step e s)).
Proof.
  intros He Hall. split.
  - rewrite state_of_step, heap_useEffect_keydown.
    apply Forall_lookup. intros draw d' Hd'.
    apply handle_closure_origin in Hd'
      as [(d & Hd & ->)|(_ & _ & [(ty & _ & ->)|(i & pos & -> & _)])].
    + now apply (Forall_lookup_1 _ _ _ _ Hall Hd).
    + done.
    + done.
  - rewrite state_of_step, waypoints_useEffect_keydown.
    destruct e as [|ty|index pos|k features|k coords|key]; simpl; try done.
    + unfold addDrawingInteraction. now destruct (map s).
    + now case_bool_decide.
    + case_bool_decide; simpl; [|done].
      destruct (heap s !! k) as [dk|] eqn:Hk; simpl; [|done].
      rewrite (Forall_lookup_1 _ _ _ _ Hall Hk). simpl.
      now apply prefix_app_r.
    + destruct (handleKeyDown_cases key s)
        as [->|[->|[[_ ->]|(k & _ & _ & [->|[coords ->]])]]]; simpl;
        rewrite ?waypoints_removeInteraction; try done.
      now apply prefix_app_r.
Qed.

Lemma run_without_Select es s :
  forallb (λ e, negb (is_Select e)) es = true →
  Forall (λ d, insertPosition (on_drawend d) = None) (heap s) →
  Forall (λ d, insertPosition (on_drawend d) = None) (heap (run es s))
  ∧ waypoints s `prefix_of` waypoints (run es s).
Proof.
  revert s. induction es as [|e es IH]; intros s Hes Hall; [done|].
  simpl in Hes. apply andb_true_iff in Hes as [He Hes].
  apply negb_true_iff in He.
  destruct (step_without_Select e s He Hall) as [Hall1 Hpre1].
  destruct (IH _ Hes Hall1) as [Hall2 Hpre2].
  rewrite run_cons. split; [done|]. by etrans.
Qed.

(** X8 — as long as no Dropdown is used the sequence only grows at its
    end: what was in it at some moment is still there, at the same
    places, at every later moment. *)
Theorem waypoints_grow_without_Select es1 es2 :
  forallb (λ e, negb (is_Select e)) (es1 ++ es2) = true →
  waypoints (run es1 (@initial C))
    `prefix_of` waypoints (run (es1 ++ es2) (@initial C)).
Proof.
  rewrite forallb_app, andb_true_iff. intros [H1 H2].
  rewrite run_app.
  apply run_without_Select; [done|].
  apply (run_without_Select es1 initial); [done|constructor].
Qed.

(** [splice] with nothing to delete, for any start. *)
Lemma splice_0 {A : Type} (l items : list A) (start : Z) :
  ∃ k : nat, k ≤ length l
             ∧ JS.splice l start 0 items = take k l ++ items ++ drop k l.
Proof.
  exists (JS.actualStart (length l) start). split.
  - unfold JS.actualStart. case_decide; lia.
  - unfold JS.splice. repeat f_equal.
    assert (JS.actualStart (length l) start ≤ length l)
      by (unfold JS.actualStart; case_decide; lia).
    lia.
Qed.

(** X9 — the 'drawend' of an insertion session, whatever index its
    callback holds (null, past the end, negative): the sequence afterwards
    is the one the callback holds, cut in two at some place, with the new
    block in between; it has every waypoint of both, once. *)
Theorem insertion_keeps_every_waypoint (cl : closure C) pos coords s :
  insertPosition cl = Some pos →
  let R := waypoints (drawend cl coords s) in
  (∃ k : nat, k ≤ length (cl_waypoints cl)
     ∧ R = take k (cl_waypoints cl) ++ formattedCoords coords
             ++ drop k (cl_waypoints cl))
  ∧ R ≡ₚ cl_waypoints cl ++ formattedCoords coords
  ∧ length R = length (cl_waypoints cl) + length coords.
Proof.
  intros Hpos R. subst R. rewrite (waypoints_drawend_insert _ pos) by done.
  destruct (splice_0 (cl_waypoints cl) (formattedCoords coords)
              (spliceStart pos (cl_selectedWaypoint cl))) as (k & Hk & ->).
  split; [eauto|].
  assert (HP : take k (cl_waypoints cl) ++ formattedCoords coords
                 ++ drop k (cl_waypoints cl)
               ≡ₚ cl_waypoints cl ++ formattedCoords coords).
  { rewrite (Permutation_app_comm (formattedCoords coords)).
    now rewrite app_assoc, take_drop. }
  split; [done|].
  rewrite HP, length_app, length_formattedCoords. done.
Qed.

(** X10 — a 'drawend' ends the drawing mode and records the type of the
    session, but leaves the interaction on the map and [drawRef] as it
    was; a keydown right after it, Enter included, changes nothing. *)
Theorem drawend_leaves_the_interaction_attached s (draw : nat) d coords :
  draw ∈ interactions s →
  heap s !! draw = Some d →
  let s' := state_of (step (DrawEnd draw coords) s) in
  drawingMode s' = None
  ∧ drawType s' = Some (type (on_drawend d))
  ∧ interactions s' = interactions s
  ∧ drawRef s' = drawRef s
  ∧ ∀ key, step (KeyDown key) s' = Returns s'.
Proof.
  intros Hin Hd s'. subst s'.
  rewrite (waypoints_DrawEnd s draw d) by done. simpl.
  set (s1 := drawend (on_drawend d) coords s).
  assert (Hmode : drawingMode s1 = None)
    by (unfold s1, drawend; now destruct (insertPosition (on_drawend d))).
  rewrite drawingMode_useEffect_keydown, interactions_useEffect_keydown.
  split; [done|].
  split; [unfold useEffect_keydown, s1, drawend;
          case_decide; now destruct (insertPosition (on_drawend d))|].
  split; [unfold s1, drawend; now destruct (insertPosition (on_drawend d))|].
  split; [unfold useEffect_keydown, s1, drawend;
          case_decide; now destruct (insertPosition (on_drawend d))|].
  intros key.
  assert (Hkd : kd_drawingMode (keydown (useEffect_keydown s1)) = None)
    by now rewrite keydown_useEffect_keydown.
  unfold step. simpl. unfold handleKeyDown. rewrite Hkd. simpl.
  rewrite andb_false_r. f_equal. apply useEffect_keydown_id.
  now rewrite Hkd, drawingMode_useEffect_keydown.
Qed.

(** X11 — pressing Enter a second time repeats the outcome of the first,
    in any state the component reaches: after an Enter that returned the
    second changes nothing, and after an Enter that threw the second
    throws again from the same state, for as long as no new session is
    begun. *)
Theorem Enter_twice es :
  let o := step (KeyDown "Enter") (run es (@initial C)) in
  step (KeyDown "Enter") (state_of o) = o.
Proof.
  intros o. subst o. set (s := run es initial).
  assert (Hwf : well_formed s) by apply run_well_formed, initial_well_formed.
  assert (Hidle : detached_are_idle s)
    by apply run_detached, initial_detached.
  destruct (drawingMode s) as [ty|] eqn:Hty.
  - destruct (Enter_well_formed s ty Hwf Hidle Hty) as (draw & Hdraw & Hstep).
    assert (Hwf' : well_formed (state_of (step (KeyDown "Enter") s)))
      by now apply step_well_formed.
    assert (Hidle' : detached_are_idle (state_of (step (KeyDown "Enter") s)))
      by now apply step_detached.
    rewrite Hstep in *. simpl in *.
    destruct (Enter_well_formed (removeInteraction draw s) ty Hwf' Hidle')
      as (draw' & Hdraw' & Hstep');
      [by rewrite drawingMode_removeInteraction|].
    rewrite drawRef_removeInteraction, Hdraw in Hdraw'.
    injection Hdraw' as <-. rewrite Hstep'. f_equal.
    unfold removeInteraction at 1.
    rewrite bool_decide_eq_false_2; [done|].
    rewrite interactions_removeInteraction.
    apply remove_NoDup_not_elem, Hwf.
  - rewrite (keydown_inactive s "Enter" Hwf) by now left.
    simpl. apply keydown_inactive; [done|by left].
Qed.

(** X12 — only Enter takes an interaction off the map, and only the one
    [drawRef] holds: after any other event the interactions that were
    attached still are, in the same order, with at most new ones behind
    them. *)
Theorem only_Enter_detaches e s :
  interactions s `prefix_of` interactions (state_of (step e s))
  ∨ (e = KeyDown "Enter"
     ∧ ∃ draw : nat,
         drawRef s = Some draw
         ∧ interactions (state_of (step e s))
           = JS.remove draw (interactions s)).
Proof.
  rewrite state_of_step, interactions_useEffect_keydown.
  destruct e as [|ty|index pos|k features|k coords|key]; simpl.
  - by left.
  - left. unfold addDrawingInteraction. destruct (map s); simpl; [|done].
    now apply prefix_app_r.
  - left. case_decide; simpl; [|done].
    unfold addDrawingInteraction. destruct (map s); simpl; [|done].
    now apply prefix_app_r.
  - left. now case_bool_decide.
  - left. case_bool_decide; simpl; [|done].
    destruct (heap s !! k) as [dk|]; simpl; [|done].
    unfold drawend. now destruct (insertPosition (on_drawend dk)).
  - destruct (handleKeyDown_cases key s)
      as [->|[->|[[_ ->]|(k & Hk & -> & [->|[coords ->]])]]]; simpl;
      rewrite ?interactions_removeInteraction; try (by left);
      right; (split; [done|]); exists k; done.
Qed.


(** X14 — when the Dropdown of one row is used twice in a row, the second
    session holds that row's index and the sequence as it is: its
    'drawend' puts the new block at that row (before) or right behind it
    (after). *)
Theorem row_chosen_twice_is_the_target s (i : nat) pos0 pos coords :
  map s = true →
  i < length (waypoints s) →
  let s2 := run [Select i pos0; Select i pos] s in
  let draw := S (length (heap s)) in
  let off := match pos with before => i | after => i + 1 end in
  draw ∈ interactions s2
  ∧ waypoints (state_of (step (DrawEnd draw coords) s2))
    = take off (waypoints s) ++ formattedCoords coords
        ++ drop off (waypoints s).
Proof.
  intros Hmap Hi s2 draw off.
  set (s1 := state_of (step (Select i pos0) s)).
  assert (H1 : map s1 = true ∧ waypoints s1 = waypoints s
               ∧ selectedWaypoint s1 = Some (Z.of_nat i)
               ∧ length (heap s1) = S (length (heap s))).
  { subst s1. unfold step, handle. rewrite decide_True by done.
    unfold addDrawingInteraction, useEffect_keydown. rewrite Hmap.
    simpl. case_decide; simpl; rewrite length_app; simpl;
      repeat split; first [done|lia]. }
  destruct H1 as (Hmap1 & Hw1 & Hsel1 & Hlen1).
  assert (H2 : heap s2 !! draw
               = Some (MkDraw (Closure Polygon (Some pos) (waypoints s)
                                 (Some (Z.of_nat i))) [])
               ∧ draw ∈ interactions s2).
  { subst s2. change (run [Select i pos0; Select i pos] s)
      with (state_of (step (Select i pos) s1)).
    unfold step, handle. rewrite decide_True by (rewrite Hw1; done).
    unfold addDrawingInteraction, useEffect_keydown.
    rewrite Hmap1, Hw1, Hsel1. subst draw. rewrite <- Hlen1.
    simpl. case_decide; simpl.
    - split; [by rewrite lookup_app_r, Nat.sub_diag by lia|].
      apply elem_of_app. right. by apply list_elem_of_singleton.
    - split; [by rewrite lookup_app_r, Nat.sub_diag by lia|].
      apply elem_of_app. right. by apply list_elem_of_singleton. }
  destruct H2 as [Hd Hin]. split; [done|].
  rewrite (waypoints_DrawEnd s2 draw _ coords Hin Hd). simpl.
  rewrite waypoints_useEffect_keydown.
  rewrite (waypoints_drawend_insert _ pos) by done. simpl.
  assert (Hst : spliceStart pos (Some (Z.of_nat i)) = Z.of_nat off)
    by (subst off; destruct pos; simpl; lia).
  rewrite Hst, splice_insert by lia.
  assert (Hoff : off ≤ length (waypoints s))
    by (subst off; destruct pos; lia).
  now replace (Z.to_nat (Z.of_nat off) `min` length (waypoints s)) with off
    by lia.
Qed.

End Behaviour.

(** ** The menu of a Dropdown *)

Section Menu.

Local Open Scope nat_scope.

Lemma clicks_snoc {P : Type} (onSelect : position → P → P)
    (bs : list Dropdown.button) (b : Dropdown.button) (st : bool * P) :
  Dropdown.clicks onSelect (bs ++ [b]) st
  = Dropdown.click onSelect b (Dropdown.clicks onSelect bs st).
Proof. unfold Dropdown.clicks. now rewrite foldl_app. Qed.

(** X15 — a Dropdown calls [onSelect] at most once for each time its
    menu is opened: from a closed menu, after any clicks, the calls made
    (one more if the menu is open) do not exceed the clicks on the toggle
    button; a click on a menu item always leaves the menu closed, and two
    clicks on the toggle leave everything as it was. *)
Theorem onSelect_once_per_opening (bs : list Dropdown.button) :
  (let st := Dropdown.clicks (λ _ calls, S calls) bs (false, 0) in
   snd st + (if fst st then 1 else 0)
   ≤ length (filter (λ b, Dropdown.is_Toggle b = true) bs))
  ∧ (∀ (P : Type) (onSelect : position → P → P) pos (st : bool * P),
       fst (Dropdown.click onSelect (Dropdown.Item pos) st) = false)
  ∧ (∀ (P : Type) (onSelect : position → P → P) (st : bool * P),
       Dropdown.click onSelect Dropdown.Toggle
         (Dropdown.click onSelect Dropdown.Toggle st) = st).
Proof.
  split; [|split].
  - induction bs as [|b bs IH] using rev_ind; [simpl; lia|].
    rewrite clicks_snoc, filter_app, length_app.
    destruct (Dropdown.clicks (λ _ calls, S calls) bs (false, 0))
      as [isOpen calls].
    simpl in IH.
    destruct b as [|pos], isOpen; simpl; simpl in IH; lia.
  - intros P onSelect pos [[] p]; reflexivity.
  - intros P onSelect [[] p]; reflexivity.
Qed.

End Menu.

(** ** The handlers on the scenarios *)

Section MoreOnScenarios.

Import Scenario.
Local Open Scope Z_scope.

Local Ltac member := vm_compute; repeat constructor.

(** Enter with two vertices sketched throws and appends nothing. *)
Lemma Enter_in_a_session_on_scenario :
  let s := run sketched_line initial in
  drawingMode s = Some LineString
  ∧ ∃ (draw : nat) s',
      drawRef s = Some draw
      ∧ step (KeyDown "Enter") s = Throws s'
      ∧ interactions s' = JS.remove draw (interactions s)
      ∧ (draw ∉ interactions s')
      ∧ waypoints s' = waypoints s
      ∧ drawingMode s' = Some LineString
      ∧ drawRef s' = Some draw
      ∧ drawType s' = drawType s.
Proof.
  intros s.
  assert (H : drawingMode s = Some LineString) by (vm_compute; reflexivity).
  split; [exact H|].
  exact (Enter_in_a_session sketched_line LineString H).
Defined.

(** Enter after the line is finished changes nothing. *)
Lemma keydown_outside_a_session_on_scenario :
  let s := run drawn_line initial in
  (drawingMode s = None ∨ "Enter" ≠ "Enter")
  ∧ step (KeyDown "Enter") s = Returns s.
Proof.
  intros s.
  assert (H : drawingMode s = None ∨ "Enter" ≠ "Enter")
    by (left; vm_compute; reflexivity).
  split; [exact H|].
  exact (keydown_outside_a_session drawn_line "Enter" H).
Defined.

(** The three waypoints of the line stay in front when only buttons are
    used. *)
Lemma waypoints_grow_without_Select_on_scenario :
  forallb (λ e : event (list Z), negb (is_Select e))
    (drawn_line ++ buttons_only) = true
  ∧ waypoints (run drawn_line initial)
      `prefix_of` waypoints (run (drawn_line ++ buttons_only) initial).
Proof.
  assert (H : forallb (λ e : event (list Z), negb (is_Select e))
                (drawn_line ++ buttons_only) = true)
    by (vm_compute; reflexivity).
  split; [exact H|].
  exact (waypoints_grow_without_Select drawn_line buttons_only H).
Defined.

(** With index -1 the block goes in front of the last waypoint. *)
Lemma insertion_keeps_every_waypoint_on_scenario :
  insertPosition holds_negative_index = Some before
  ∧ waypoints (drawend holds_negative_index [[6; 6]] (@initial (list Z)))
    ≡ₚ cl_waypoints holds_negative_index ++ formattedCoords [[6; 6]].
Proof.
  split; [reflexivity|].
  exact (proj1 (proj2 (insertion_keeps_every_waypoint holds_negative_index
                         before [[6; 6]] initial eq_refl))).
Defined.

(** A 'drawend' of the line's interaction leaves it attached. *)
Lemma drawend_leaves_the_interaction_attached_on_scenario :
  let s := run nothing_sketched initial in
  (0%nat ∈ interactions s ∧ heap s !! 0%nat = Some not_sketching)
  ∧ interactions (state_of (step (DrawEnd 0%nat line) s)) = interactions s
  ∧ step (KeyDown "Enter") (state_of (step (DrawEnd 0%nat line) s))
    = Returns (state_of (step (DrawEnd 0%nat line) s)).
Proof.
  intros s.
  assert (Hin : 0%nat ∈ interactions s) by member.
  assert (Hd : heap s !! 0%nat = Some not_sketching)
    by (vm_compute; reflexivity).
  split; [split; assumption|].
  destruct (drawend_leaves_the_interaction_attached s 0%nat not_sketching
              line Hin Hd) as (_ & _ & Hint & _ & Hkey).
  split; [exact Hint|exact (Hkey "Enter")].
Defined.


(** Row 1 chosen twice: the block stands at offset 1. *)
Lemma row_chosen_twice_is_the_target_on_scenario :
  let s := run drawn_line initial in
  (map s = true ∧ (1 < length (waypoints s))%nat)
  ∧ waypoints
      (state_of (step (DrawEnd 2%nat block)
                   (run [Select 1%nat after; Select 1%nat before] s)))
    = [Waypoint "WP(00)" [0; 0]; Waypoint "WP(00)" [9; 9];
       Waypoint "WP(01)" [8; 8]; Waypoint "WP(01)" [1; 1];
       Waypoint "WP(02)" [2; 2]].
Proof.
  intros s.
  assert (Hm : map s = true) by (vm_compute; reflexivity).
  assert (H1 : (1 < length (waypoints s))%nat) by (vm_compute; lia).
  split; [split; assumption|].
  pose proof (proj2 (row_chosen_twice_is_the_target s 1%nat after before
                       block Hm H1)) as H.
  vm_compute in H. vm_compute. exact H.
Defined.

End MoreOnScenarios.
